(** * SG Tree: the node and tree container of [sg_tree.h]

    A shallow embedding of the scapegoat-style cover tree declared in
    [src/sg_tree/sg_tree.h], together with the properties its
    specification states about it.

    Conventions of the embedding:
    - [scalar] is modelled by the rationals [Q]; exact zero tests and
      comparisons are the boolean ones of [QArith];
    - [pointType] and the L2 distance [(a - b).norm()] come from Eigen and
      [utils.h]; they are section variables, instantiated at the end of the
      file by the rational line with [|a - b|];
    - [int] fields are integers of [Z]: levels stay near the 2049 cells of
      the power table, far from the ends of [int], where [level - 1] would
      be undefined; [unsigned] fields are integers of [Z], reduced modulo
      [2^32] where the code converts into them;
    - [std::vector<Node*>] owns its nodes and the tree has no sharing, so
      [children] is a list of nodes; member functions that mutate [*this]
      return the updated node;
    - reading a raw array outside its bounds, [back()] of an empty vector
      and an out-of-range position are undefined in C++: the embedding
      returns [None] there;
    - the per-node mutex, the global mutex and the [PRINTVER] distance
      counters are not modelled: every operation is taken in isolation;
    - the header declares [compute_pow_table], [insert], [calc_maxdist] and
      [kNearestNeighbours] without their bodies; these are taken from the
      specification, and their definitions say so. *)

From Stdlib Require Import ZArith QArith Qabs Qminmax Qpower Lia Lqa String.
From stdpp Require Import base option list sorting.

Local Open Scope Z_scope.

(** ** Machine integers *)

(** Conversion of an [int] into an [unsigned] of 32 bits. *)
Definition to_unsigned (z : Z) : Z := z mod 2 ^ 32.

(** ** Raw arrays *)

(** [a[i]] for a raw array [a]: no value outside the allocated cells. *)
Definition index {A : Type} (a : list A) (i : Z) : option A :=
  if i <? 0 then None else a !! Z.to_nat i.

Section Model.

Context {pointType : Type}.

(** [(a - b).norm()], the L2 norm of the difference of two points. *)
Variable norm_diff : pointType -> pointType -> Q.

(** ** struct Node *)

#[local] Unset Elimination Schemes.

Inductive Node : Type := mkNode {
  _p : pointType;
  children : list Node;
  level : Z;
  maxdistUB : Q;
  ID : Z;
  UID : Z;
  ext_prop : string
}.

#[local] Set Elimination Schemes.

Definition set_children (n : Node) (cs : list Node) : Node :=
  {| _p := _p n; children := cs; level := level n; maxdistUB := maxdistUB n;
     ID := ID n; UID := UID n; ext_prop := ext_prop n |}.

Definition set_maxdistUB (n : Node) (ub : Q) : Node :=
  {| _p := _p n; children := children n; level := level n; maxdistUB := ub;
     ID := ID n; UID := UID n; ext_prop := ext_prop n |}.

(** A stronger induction principle: the property may be assumed of every
    child. *)
Fixpoint Node_forall_ind (P : Node -> Prop)
    (step : forall n, Forall P (children n) -> P n) (n : Node) : P n :=
  match n as n0 return (forall m, Forall P (children m) -> P m) -> P n0 with
  | mkNode p cs l ub i u e => fun st =>
      st (mkNode p cs l ub i u e)
         ((fix all (l0 : list Node) : Forall P l0 :=
             match l0 with
             | [] => Forall_nil_2 P
             | c :: r => Forall_cons_2 P c r (Node_forall_ind P step c) (all r)
             end) cs)
  end step.

(** *** Node modifiers *)

Definition covdist (powdict : list Q) (n : Node) : option Q :=
  index powdict (level n + 1024).

Definition sepdist (powdict : list Q) (n : Node) : option Q :=
  index powdict (level n + 1023).

(** [dist(const pointType& pp)] *)
Definition dist (n : Node) (pp : pointType) : Q := norm_diff (_p n) pp.

(** [dist(const Node* n)] *)
Definition dist_node (n m : Node) : Q := norm_diff (_p n) (_p m).

(** [setChild] returns the node it was called on, with the new child
    appended, and the new child ([temp]). *)
Definition setChild (n : Node) (pIns : pointType) (uid : Z) (new_id : Z)
  : Node * Node :=
  let temp := {| _p := pIns; children := []; level := level n - 1;
                 maxdistUB := 0%Q; ID := to_unsigned new_id; UID := uid;
                 ext_prop := EmptyString |} in
  (set_children n (children n ++ [temp]), temp).

(** The default arguments [UID = 0] and [new_id = -1]. *)
Definition setChild_uid (n : Node) (pIns : pointType) (uid : Z) : Node * Node :=
  setChild n pIns uid (-1).

Definition setChild_point (n : Node) (pIns : pointType) : Node * Node :=
  setChild n pIns 0 (-1).

(** *** erase child *)

(** [children[pos] = children.back(); children.pop_back();], for a
    position given by index or by iterator. *)
Definition erase (n : Node) (pos : nat) : option Node :=
  match last (children n) with
  | None => None
  | Some b =>
      if decide (pos < length (children n))%nat
      then Some (set_children n (removelast (<[pos := b]> (children n))))
      else None
  end.


(** ** class SGTree *)

Record SGTree : Type := mkSGTree {
  base : Q;
  root : option Node;
  min_scale : Z;
  max_scale : Z;
  truncate_level : Z;
  id_valid : bool;
  powdict : list Q;
  N : Z;
  D : Z
}.

(** [bool remove(const pointType& p) {return false;}] *)
Definition remove (t : SGTree) (p : pointType) : bool * SGTree := (false, t).

(** [Node* get_root() {return root;}] *)
Definition get_root (t : SGTree) : option Node := root t.

(** [int get_tree_size() {return N.load();}] *)
Definition get_tree_size (t : SGTree) : Z := N t.

(** ** The power table *)

Definition BIAS : Z := 1024.

(** Modelled from the spec: the body of [compute_pow_table] (declared in
    [sg_tree.h], defined outside it).  [powdict[i] = base^(i - BIAS)] for
    [i] in [[0, 2 * BIAS]]. *)
Definition compute_pow_table (b : Q) : list Q :=
  map (fun i : nat => Qpower b (Z.of_nat i - BIAS))
      (seq 0 (Z.to_nat (2 * BIAS + 1))).

(** ** Nodes below a node *)

Fixpoint descendants (n : Node) : list Node :=
  match n with
  | mkNode _ cs _ _ _ _ _ => flat_map (fun c => c :: descendants c) cs
  end.

Definition subnodes (n : Node) : list Node := n :: descendants n.

(** The largest distance from [n] to one of its descendants ([0] when
    there is none). *)
Definition max_desc_dist (n : Node) : Q :=
  foldr Qmax 0%Q (map (dist_node n) (descendants n)).

(** [maxdistUB] of [n] is an upper bound of the distances to its
    descendants. *)
Definition bound_ok (n : Node) : Prop := (max_desc_dist n <= maxdistUB n)%Q.

Definition bounds_ok (n : Node) : Prop := Forall bound_ok (subnodes n).

(** The recurrence of [calc_maxdist] at one node. *)
Definition bound_rec (n : Node) : Prop :=
  maxdistUB n =
  foldr Qmax 0%Q
    (map (fun c => dist_node n c + maxdistUB c)%Q (children n)).

(** ** Maintenance *)

(** Modelled from the spec: the body of [calc_maxdist] (declared in
    [sg_tree.h], defined outside it), at one node.  Post-order traversal;
    [n.maxdistUB = max over children c of (dist(n, c) + c.maxdistUB)];
    leaves get [0]. *)
Fixpoint calc_maxdist_node (n : Node) : Node :=
  match n with
  | mkNode p cs l _ i u e =>
      let cs' := map calc_maxdist_node cs in
      mkNode p cs' l
        (foldr Qmax 0%Q (map (fun c => norm_diff p (_p c) + maxdistUB c)%Q cs'))
        i u e
  end.

Definition set_root (t : SGTree) (r : option Node) : SGTree :=
  {| base := base t; root := r; min_scale := min_scale t;
     max_scale := max_scale t; truncate_level := truncate_level t;
     id_valid := id_valid t; powdict := powdict t; N := N t; D := D t |}.

(** Modelled from the spec: [calc_maxdist] (body missing from [sg_tree.h]),
    the traversal started at the root; nothing to do in a tree with no
    point. *)
Definition calc_maxdist (t : SGTree) : SGTree :=
  set_root t (calc_maxdist_node <$> root t).

(** ** Insertion *)

(** The bodies of the two [insert] functions are declared in [sg_tree.h]
    and defined outside it; they follow section 4.D of the specification. *)

(** Modelled from the spec: the root that [insert] (body missing) installs
    in an empty tree, the first point at level 0.  The spec leaves [ID]
    open ("assigned from an internal counter or left invalid"); it is left
    invalid here, as [setChild] does by default. *)
Definition first_root (p : pointType) (uid : Z) : Node :=
  {| _p := p; children := []; level := 0; maxdistUB := 0%Q;
     ID := to_unsigned (-1); UID := uid; ext_prop := EmptyString |}.

(** Modelled from the spec: one step of the root promotion of [insert]
    (body missing): a new root one level up, whose point is the old root's
    point and whose only child is the old root.  The spec names no value
    for the other fields; the identifiers and properties are the old
    root's and the bound is the one of a fresh node. *)
Definition lift_root (r : Node) : Node :=
  {| _p := _p r; children := [r]; level := level r + 1; maxdistUB := 0%Q;
     ID := ID r; UID := UID r; ext_prop := ext_prop r |}.

(** Modelled from the spec: the root promotion of [insert] (body missing):
    while [d0 > covdist(root.level)], lift the root and record its level in
    [max_scale].  Every step reads the next cell of the table, so
    [length powdict] steps of fuel are never used up before the table is
    left (see [promote_result]). *)
Fixpoint promote (fuel : nat) (pd : list Q) (r : Node) (maxs : Z) (d0 : Q)
  : option (Node * Z) :=
  match fuel with
  | O => None
  | S fuel' =>
      cd ← covdist pd r;
      if negb (Qle_bool d0 cd)
      then let r' := lift_root r in promote fuel' pd r' (level r') d0
      else Some (r, maxs)
  end.

Section Scan.

Variables (pd : list Q) (p : pointType) (uid : Z) (current : Node).
Variables (mins cnt : Z).
Variable enter : Node -> option (bool * Node * Z * Z).

(** Modelled from the spec: the recursive helper
    [insert(current, p, UID, curr_dist)] (body missing), in two parts.
    [mins] and [cnt] are [min_scale] and [N], passed through.  A duplicate
    is a current node at distance exactly zero.  The children are examined
    in insertion order and the first candidate, a child [c] with
    [dist(c, p) <= covdist(L - 1)], is entered ([enter], the recursive
    call); [covdist(L - 1)] is the accessor of the code at level [L - 1],
    the same radius as the one the root promotion compares with.  Without
    a candidate the point is attached below [current]
    (also below the truncation floor: "attach anyway"), [min_scale] goes
    down to [L - 1] and [N] is incremented. *)
Fixpoint scan_children (seen rest : list Node) {struct rest}
  : option (bool * Node * Z * Z) :=
  match rest with
  | [] =>
      Some (true, fst (setChild_uid current p uid),
            Z.min mins (level current - 1), to_unsigned (cnt + 1))
  | c :: rest' =>
      cd ← index pd (level current - 1 + 1024);
      if Qle_bool (dist c p) cd
      then
        '(res, c', mins', cnt') ← enter c;
        Some (res, set_children current (seen ++ c' :: rest'), mins', cnt')
      else scan_children (seen ++ [c]) rest'
  end.

End Scan.

(** Modelled from the spec: the recursive helper (body missing), the zero
    test on the current node before the scan of its children. *)
Fixpoint insert_at (pd : list Q) (current : Node) (p : pointType) (uid : Z)
    (curr_dist : Q) (mins cnt : Z) {struct current}
  : option (bool * Node * Z * Z) :=
  if Qeq_bool curr_dist 0 then Some (false, current, mins, cnt)
  else
    scan_children pd p uid current mins cnt
      (fun c => insert_at pd c p uid (dist c p) mins cnt)
      [] (children current).

(** Modelled from the spec: [insert(p, UID)] (body missing): the first
    point of an empty tree; else the distance to the root, the root
    promotion, and the descent from the root. *)
Definition insert (t : SGTree) (p : pointType) (uid : Z)
  : option (bool * SGTree) :=
  match root t with
  | None =>
      Some (true,
            {| base := base t; root := Some (first_root p uid);
               min_scale := 0; max_scale := 0;
               truncate_level := truncate_level t; id_valid := id_valid t;
               powdict := powdict t; N := 1; D := D t |})
  | Some r =>
      let d0 := dist r p in
      '(r1, maxs) ←
        promote (length (powdict t)) (powdict t) r (max_scale t) d0;
      '(res, r2, mins, cnt) ←
        insert_at (powdict t) r1 p uid d0 (min_scale t) (N t);
      Some (res,
            {| base := base t; root := Some r2;
               min_scale := mins; max_scale := maxs;
               truncate_level := truncate_level t; id_valid := id_valid t;
               powdict := powdict t; N := cnt; D := D t |})
  end.

Section Observed.

Variables (pd : list Q) (p : pointType) (current : Node).
Variable enter : Node -> list Node.

(** The nodes whose distance to [p] the descent of [insert_at] evaluates:
    the current nodes and the children it examines. *)
Fixpoint observed_scan (rest : list Node) {struct rest} : list Node :=
  match rest with
  | [] => []
  | c :: rest' =>
      match index pd (level current - 1 + 1024) with
      | None => [c]
      | Some cd =>
          if Qle_bool (dist c p) cd then enter c else c :: observed_scan rest'
      end
  end.

End Observed.

Fixpoint observed_at (pd : list Q) (current : Node) (p : pointType)
    (curr_dist : Q) {struct current} : list Node :=
  current ::
  (if Qeq_bool curr_dist 0 then []
   else observed_scan pd p current
          (fun c => observed_at pd c p (dist c p)) (children current)).

Definition observed (t : SGTree) (p : pointType) : list Node :=
  match root t with
  | None => []
  | Some r =>
      match promote (length (powdict t)) (powdict t) r (max_scale t)
                    (dist r p) with
      | None => [r]
      | Some (r1, _) => observed_at (powdict t) r1 p (dist r p)
      end
  end.

(** Whether the distance of [n] to [p] is exactly zero. *)
Definition is_duplicate (p : pointType) (n : Node) : Prop := (dist n p == 0)%Q.

(** A duplicate of [p] is met during the descent. *)
Definition meets_duplicate (t : SGTree) (p : pointType) : Prop :=
  Exists (is_duplicate p) (observed t p).

(** What the descent below one node gives, [r] being its result and [seen]
    the nodes it looked at: a result; a duplicate reported and the node
    and the counters as they were exactly when a node at distance zero is
    among those looked at. *)
Definition descent_ok (p : pointType) (cnt mins : Z) (n : Node)
    (r : option (bool * Node * Z * Z)) (seen : list Node) : Prop :=
  exists res n' mins' cnt',
    r = Some (res, n', mins', cnt')
    /\ (Exists (is_duplicate p) seen ->
        res = false /\ n' = n /\ mins' = mins /\ cnt' = cnt)
    /\ (~ Exists (is_duplicate p) seen ->
        res = true /\ cnt' = to_unsigned (cnt + 1)).

(** What [insert] needs of the table and of the levels to stay within the
    table: every cell is positive (a power of the base), the level of the
    root and, for a node with children, the level below it are cells of
    the table, and the last cell of the table covers the distance of the
    point to the root. *)
Definition in_table (pd : list Q) (L : Z) : Prop :=
  0 <= L + 1024 < Z.of_nat (length pd).

Definition table_positive (pd : list Q) : Prop := Forall (fun x => 0 < x)%Q pd.

Definition child_levels_in_table (pd : list Q) (r : Node) : Prop :=
  Forall (fun n => children n <> [] -> in_table pd (level n - 1)) (subnodes r).

Definition insert_within_table (t : SGTree) (p : pointType) : Prop :=
  forall r, root t = Some r ->
    in_table (powdict t) (level r)
    /\ child_levels_in_table (powdict t) r
    /\ exists top, last (powdict t) = Some top /\ (dist r p <= top)%Q.

(** ** k-nearest-neighbour query *)

(** The body of [kNearestNeighbours] is declared in [sg_tree.h] and defined
    outside it; it follows section 4.E of the specification: the common
    branch-and-bound frame with the top-[k] as admissibility threshold.
    The frontier holds [(node, lower bound)] pairs.  The top-[k] heap is
    kept as the list of its entries in ascending order of distance, an
    entry going behind the entries of the same distance (stable
    tie-break); its largest distance is the last entry, and the result is
    the heap itself. *)

(** Modelled from the spec: the lower bound of the frame of
    [kNearestNeighbours] (body missing),
    [max(0, dist(node, p) - node.maxdistUB)]. *)
Definition lower_bound (n : Node) (p : pointType) : Q :=
  Qmax 0 (dist n p - maxdistUB n).

(** Modelled from the spec: the pop of the frame of [kNearestNeighbours]
    (body missing): the entry with the smallest lower bound, the first of
    them in frontier order. *)
Fixpoint pop_min (fr : list (Node * Q))
  : option ((Node * Q) * list (Node * Q)) :=
  match fr with
  | [] => None
  | x :: rest =>
      match pop_min rest with
      | None => Some (x, [])
      | Some (y, rest') =>
          if Qle_bool (snd x) (snd y) then Some (x, rest)
          else Some (y, x :: rest')
      end
  end.

(** Modelled from the spec: the top-[k] heap of [kNearestNeighbours] (body
    missing), an entry put in behind the entries that are not further. *)
Fixpoint heap_insert (x : Node * Q) (h : list (Node * Q)) : list (Node * Q) :=
  match h with
  | [] => [x]
  | y :: h' =>
      if Qle_bool (snd y) (snd x) then y :: heap_insert x h'
      else x :: y :: h'
  end.

(** Modelled from the spec: the update of the top-[k] heap of
    [kNearestNeighbours] (body missing), of size at most [k]: the entry
    goes in and the furthest entry beyond [k] goes out. *)
Definition heap_push (k : nat) (x : Node * Q) (h : list (Node * Q))
  : list (Node * Q) :=
  take k (heap_insert x h).

(** Modelled from the spec: the threshold of [kNearestNeighbours] (body
    missing): the heap's largest distance once the heap is full, else
    [+oo] ([None]). *)
Definition threshold (k : nat) (h : list (Node * Q)) : option Q :=
  if decide (length h < k)%nat then None else snd <$> last h.

(** Modelled from the spec: the stop test of the frame of
    [kNearestNeighbours] (body missing): the lower bound exceeds the
    threshold. *)
Definition exceeds (lb : Q) (thr : option Q) : bool :=
  match thr with
  | None => false
  | Some t => negb (Qle_bool lb t)
  end.

(** Modelled from the spec: the children pushed by the frame of
    [kNearestNeighbours] (body missing), with their own lower bounds. *)
Definition frontier_of (p : pointType) (cs : list Node) : list (Node * Q) :=
  map (fun c => (c, lower_bound c p)) cs.

(** Modelled from the spec: the loop of [kNearestNeighbours] (body
    missing): pop the entry with the smallest lower bound; stop if it
    exceeds the threshold; else update the top-[k] with the node and push
    its children. *)
Fixpoint knn_loop (fuel : nat) (p : pointType) (k : nat)
    (fr h : list (Node * Q)) : list (Node * Q) :=
  match fuel with
  | O => h
  | S fuel' =>
      match pop_min fr with
      | None => h
      | Some ((n, lb), fr') =>
          if exceeds lb (threshold k h) then h
          else knn_loop fuel' p k (fr' ++ frontier_of p (children n))
                        (heap_push k (n, dist n p) h)
      end
  end.

(** Modelled from the spec: [kNearestNeighbours(p, k)] (body missing), the
    loop started with the root on the frontier and an empty heap.  Every
    turn takes one node of the tree off the frontier, so as many turns as
    the tree has nodes empty it (see [kNearestNeighbours_fuel]). *)
Definition kNearestNeighbours (t : SGTree) (p : pointType) (k : nat)
  : list (Node * Q) :=
  match root t with
  | None => []
  | Some r => knn_loop (length (subnodes r)) p k [(r, lower_bound r p)] []
  end.

(** The order in which the frame takes the nodes off the frontier when no
    threshold stops it, with the lower bound of each, and the top-[k] run
    over such an order: [knn_loop] is the second applied to the first
    (see [knn_loop_process]). *)
Fixpoint explore (fuel : nat) (p : pointType) (fr : list (Node * Q))
  : list (Node * Q) :=
  match fuel with
  | O => []
  | S fuel' =>
      match pop_min fr with
      | None => []
      | Some ((n, lb), fr') =>
          (n, lb) :: explore fuel' p (fr' ++ frontier_of p (children n))
      end
  end.

Fixpoint process (p : pointType) (k : nat) (l h : list (Node * Q))
  : list (Node * Q) :=
  match l with
  | [] => h
  | (n, lb) :: l' =>
      if exceeds lb (threshold k h) then h
      else process p k l' (heap_push k (n, dist n p) h)
  end.

(** Ascending by distance. *)
Definition by_distance (x y : Node * Q) : Prop := (snd x <= snd y)%Q.

(** The lower bound of an entry is below the distance of every node taken
    off the frontier from this entry on. *)
Fixpoint admissible (p : pointType) (l : list (Node * Q)) : Prop :=
  match l with
  | [] => True
  | x :: l' =>
      Forall (fun y => snd x <= dist (fst y) p)%Q (x :: l') /\ admissible p l'
  end.

(** A frontier whose nodes have valid bounds below them. *)
Definition frontier_ok (p : pointType) (fr : list (Node * Q)) : Prop :=
  Forall (fun a => snd a = lower_bound (fst a) p /\ bounds_ok (fst a)) fr.

(** The number of nodes a frontier stands for. *)
Definition frontier_size (fr : list (Node * Q)) : nat :=
  length (flat_map (fun a => subnodes (fst a)) fr).

(** ** Notions for the laws of the node operations *)

(** The values of an [int] of 32 bits. *)
Definition int_range (z : Z) : Prop := - 2 ^ 31 <= z < 2 ^ 31.

(** Every child is one level below its parent, at [n] and below it. *)
Definition levels_consistent (n : Node) : Prop :=
  Forall (fun m => Forall (fun c => level c = level m - 1) (children m))
         (subnodes n).

(** The external identifiers of [n] and of the nodes below it. *)
Definition uids (n : Node) : list Z := map UID (subnodes n).

(** [setChild] called on a node once for every entry (point, UID, id) of a
    list, in the order of the list. *)
Definition setChildren (n : Node) (l : list (pointType * Z * Z)) : Node :=
  fold_left (fun acc x => fst (setChild acc (fst (fst x)) (snd (fst x)) (snd x)))
            l n.

End Model.

Arguments Node : clear implicits.
Arguments SGTree : clear implicits.

(** What the L2 distance of the point type is assumed to satisfy. *)
Record metric {pointType : Type} (d : pointType -> pointType -> Q) : Prop := {
  metric_nonneg : forall a b, (0 <= d a b)%Q;
  metric_sym : forall a b, (d a b == d b a)%Q;
  metric_triangle : forall a b c, (d a c <= d a b + d b c)%Q
}.

(** ** The rational line

    Points of dimension one with rational coordinates; the L2 norm of a
    difference is its absolute value. *)

Definition line_dist (a b : Q) : Q := Qabs (a - b).

Definition line_node (x : Q) (l uid : Z) (cs : list (Node Q)) : Node Q :=
  {| _p := x; children := cs; level := l; maxdistUB := 0%Q;
     ID := to_unsigned (-1); UID := uid; ext_prop := EmptyString |}.

(** Modelled from the spec: the constructor [SGTree(int truncate = -1)]
    (body missing) on the rational line: no root, and the table of base
    [b]. *)
Definition null_tree (b : Q) : SGTree Q :=
  {| base := b; root := None; min_scale := 0; max_scale := 0;
     truncate_level := -1; id_valid := false;
     powdict := compute_pow_table b; N := 0; D := 1 |}.

(** The points [0], [1] and [5/8] in a chain, as three insertions into the
    empty tree of base 2 leave them (see [line_tree_inserted]). *)
Definition line_chain : Node Q :=
  line_node 0 0 1 [line_node 1 (-1) 2 [line_node (5 # 8) (-2) 3 []]].

Definition line_tree : SGTree Q :=
  {| base := 2%Q; root := Some line_chain; min_scale := -2; max_scale := 0;
     truncate_level := -1; id_valid := false;
     powdict := compute_pow_table 2; N := 3; D := 1 |}.

(** The point [0] with the points [1], [2] and [3] as children. *)
Definition line_fan : Node Q :=
  line_node 0 0 1
    [line_node 1 (-1) 2 []; line_node 2 (-1) 3 []; line_node 3 (-1) 4 []].

(** * Properties *)

(** ** The power table and the two radii *)

Lemma index_lookup {A : Type} (a : list A) (i : nat) :
  index a (Z.of_nat i) = a !! i.
Proof.
  unfold index. destruct (Z.ltb_spec (Z.of_nat i) 0) as [Hneg | _]; [lia |].
  by rewrite Nat2Z.id.
Qed.

Lemma index_compute_pow_table (b : Q) (i : Z) :
  0 <= i <= 2 * BIAS ->
  index (compute_pow_table b) i = Some (Qpower b (i - BIAS)).
Proof.
  intros Hi. rewrite <- (Z2Nat.id i) at 1 by lia. rewrite index_lookup.
  unfold compute_pow_table.
  change (map ?f ?l) with (f <$> l). rewrite list_lookup_fmap.
  rewrite lookup_seq_lt by (unfold BIAS in *; lia).
  simpl. by rewrite Z2Nat.id by lia.
Qed.

Lemma length_compute_pow_table (b : Q) :
  length (compute_pow_table b) = Z.to_nat (2 * BIAS + 1).
Proof. unfold compute_pow_table. by rewrite length_map, length_seq. Qed.

Section NodeFacts.

Context {pointType : Type}.
Implicit Types (n : Node pointType) (p : pointType).

(** C1, as the code has it: for a node at level [L] within the table,
    [covdist] reads [powdict[L + 1024]], which is [base^L] (and not
    [powdict[L + 1025] = base^(L+1)]). *)
Theorem covdist_pow_table (b : Q) n :
  - BIAS <= level n <= BIAS ->
  covdist (compute_pow_table b) n = index (compute_pow_table b) (level n + BIAS)
  /\ covdist (compute_pow_table b) n = Some (Qpower b (level n)).
Proof.
  intros Hl. unfold covdist. change 1024 with BIAS. split; [done |].
  rewrite index_compute_pow_table by lia. do 2 f_equal. lia.
Qed.

(** C2, as the code has it: for a node at level [L] with [L - 1] within
    the table, [sepdist] reads [powdict[L + 1023]], which is [base^(L-1)]
    (and not [powdict[L + 1024] = base^L]). *)
Theorem sepdist_pow_table (b : Q) n :
  - BIAS < level n <= BIAS + 1 ->
  sepdist (compute_pow_table b) n
    = index (compute_pow_table b) (level n + BIAS - 1)
  /\ sepdist (compute_pow_table b) n = Some (Qpower b (level n - 1)).
Proof.
  intros Hl. unfold sepdist. change 1023 with (BIAS - 1).
  replace (level n + (BIAS - 1)) with (level n + BIAS - 1) by lia.
  split; [done |].
  rewrite index_compute_pow_table by lia. do 2 f_equal. lia.
Qed.

(** ** setChild *)

(** C7: [setChild] on a node at level [L] makes a node with the given
    point and UID, level [L - 1], bound 0 and no child, appends it behind
    the children the node had, changes nothing else of the node, and
    returns the new node. *)
Theorem setChild_spec n p (uid new_id : Z) :
  let n' := fst (setChild n p uid new_id) in
  let c := snd (setChild n p uid new_id) in
  _p c = p /\ level c = level n - 1 /\ maxdistUB c = 0%Q /\ UID c = uid
  /\ children c = []
  /\ children n' = children n ++ [c]
  /\ last (children n') = Some c
  /\ (forall i x, children n !! i = Some x -> children n' !! i = Some x)
  /\ length (children n') = S (length (children n))
  /\ _p n' = _p n /\ level n' = level n /\ maxdistUB n' = maxdistUB n
  /\ ID n' = ID n /\ UID n' = UID n /\ ext_prop n' = ext_prop n.
Proof.
  simpl. repeat split.
  - apply last_snoc.
  - intros i x Hx. by apply lookup_app_l_Some.
  - rewrite length_app. simpl. lia.
Qed.

(** C10: without a [new_id] argument, the default [-1] is converted into
    the unsigned [ID] field, which then holds [4294967295 = 2^32 - 1]. *)
Theorem setChild_default_ID n p (uid : Z) :
  ID (snd (setChild_uid n p uid)) = 4294967295
  /\ ID (snd (setChild_point n p)) = 4294967295
  /\ 4294967295 = 2 ^ 32 - 1.
Proof. repeat split. Qed.

(** ** erase *)

Lemma swap_remove_take_drop {A : Type} (l : list A) (b : A) (pos : nat) :
  (pos < length l)%nat ->
  removelast (<[pos := b]> (l ++ [b])) = take pos l ++ b :: drop (S pos) l.
Proof.
  intros Hpos. rewrite insert_app_l by done.
  rewrite removelast_last. by apply insert_take_drop.
Qed.

Lemma swap_remove_last {A : Type} (l : list A) (b : A) :
  removelast (<[length l := b]> (l ++ [b])) = l.
Proof.
  replace (length l) with (length l + 0)%nat at 1 by lia.
  rewrite insert_app_r. simpl. apply removelast_last.
Qed.

Lemma swap_remove_perm {A : Type} (l : list A) (b : A) (pos : nat) :
  (pos < length (l ++ [b]))%nat ->
  removelast (<[pos := b]> (l ++ [b])) ≡ₚ delete pos (l ++ [b]).
Proof.
  rewrite length_app. simpl. intros Hpos.
  assert (Hcases : (pos < length l)%nat \/ pos = length l) by lia.
  destruct Hcases as [Hlt | ->].
  - rewrite swap_remove_take_drop by done.
    rewrite delete_take_drop, drop_app_le by lia.
    rewrite take_app_le by lia.
    apply Permutation_app_head. apply Permutation_cons_append.
  - rewrite swap_remove_last.
    rewrite delete_take_drop, take_app_length.
    rewrite drop_ge by (rewrite length_app; simpl; lia).
    by rewrite app_nil_r.
Qed.

Lemma erase_children n (pos : nat) n' :
  erase n pos = Some n' ->
  exists l b, children n = l ++ [b] /\ (pos < length (l ++ [b]))%nat
    /\ n' = set_children n (removelast (<[pos := b]> (l ++ [b]))).
Proof.
  unfold erase. intros He.
  destruct (last (children n)) as [b |] eqn:Hlast; [| done].
  destruct (decide _) as [Hpos | _]; [| done]. injection He as <-.
  apply last_Some in Hlast as [l Hl]. exists l, b. by rewrite <- Hl.
Qed.

(** C8: on a node with children and a valid position, [erase] puts the
    last child at [pos] and drops the last cell: the vector is one
    shorter, the cells other than [pos] keep their child, the children
    left are those of before without the one at [pos] (as a multiset),
    and with at least two children behind [pos] their order is not the
    order of before. *)
Theorem erase_swap_remove n (pos : nat) :
  (pos < length (children n))%nat ->
  exists n' b,
    erase n pos = Some n' /\ last (children n) = Some b
    /\ length (children n') = pred (length (children n))
    /\ ((S pos < length (children n))%nat -> children n' !! pos = Some b)
    /\ (forall i, (S i < length (children n))%nat -> i <> pos ->
          children n' !! i = children n !! i)
    /\ children n' ≡ₚ delete pos (children n)
    /\ ((S (S pos) < length (children n))%nat -> NoDup (children n) ->
          children n' <> delete pos (children n))
    /\ _p n' = _p n /\ level n' = level n /\ maxdistUB n' = maxdistUB n
    /\ ID n' = ID n /\ UID n' = UID n /\ ext_prop n' = ext_prop n.
Proof.
  intros Hpos. unfold erase.
  destruct (last (children n)) as [b |] eqn:Hlast.
  2: { apply last_None in Hlast. rewrite Hlast in Hpos. simpl in Hpos. lia. }
  destruct (decide (pos < length (children n))%nat) as [_ | Hno]; [| lia].
  eexists _, b. split; [reflexivity |]. split; [reflexivity |]. simpl.
  apply last_Some in Hlast as [l Hl]. rewrite Hl in *. clear Hl.
  rewrite length_app in *. simpl in *.
  assert (Hcases : (pos < length l)%nat \/ pos = length l) by lia.
  destruct Hcases as [Hlt | ->].
  - rewrite swap_remove_take_drop by done.
    assert (Htake : length (take pos l) = pos) by (rewrite length_take; lia).
    destruct (lookup_lt_is_Some_2 l pos Hlt) as [x Hx].
    repeat split.
    + rewrite length_app. simpl. rewrite Htake, length_drop. lia.
    + intros _. rewrite lookup_app_r by lia. by rewrite Htake, Nat.sub_diag.
    + intros i Hi Hne.
      rewrite (lookup_app_l l) by lia.
      destruct (decide (i < pos)%nat) as [Hip | Hip].
      * rewrite lookup_app_l by lia. by apply lookup_take_lt.
      * rewrite lookup_app_r by lia. rewrite Htake.
        destruct (i - pos)%nat as [| j] eqn:Hj; [lia |]. simpl.
        rewrite lookup_drop. f_equal. lia.
    + rewrite <- swap_remove_take_drop by done.
      apply swap_remove_perm. rewrite length_app. simpl. lia.
    + intros Hlen Hnd Heq.
      assert (Hb : (l ++ [b]) !! length l = Some b).
      { rewrite lookup_app_r by lia. by rewrite Nat.sub_diag. }
      assert (Hb' : (l ++ [b]) !! S pos = Some b).
      { apply (f_equal (fun k => k !! pos)) in Heq.
        rewrite lookup_app_r in Heq by lia.
        rewrite Htake, Nat.sub_diag in Heq. simpl in Heq.
        rewrite list_lookup_delete_ge in Heq by lia. done. }
      pose proof (NoDup_lookup _ _ _ _ Hnd Hb Hb'). lia.
  - rewrite swap_remove_last. repeat split.
    + lia.
    + intros Hlt. lia.
    + intros i Hi _. rewrite lookup_app_l by lia. done.
    + rewrite <- (swap_remove_last l b) at 1.
      apply swap_remove_perm. rewrite length_app. simpl. lia.
    + intros Hlt. lia.
Qed.

(** ** remove *)

(** C6: [remove] returns [false] and the tree it was given. *)
Theorem remove_noop (t : SGTree pointType) p :
  remove t p = (false, t)
  /\ root (snd (remove t p)) = root t
  /\ get_tree_size (snd (remove t p)) = get_tree_size t
  /\ min_scale (snd (remove t p)) = min_scale t
  /\ max_scale (snd (remove t p)) = max_scale t.
Proof. repeat split. Qed.

End NodeFacts.

(** ** The cached bound [maxdistUB] *)

Local Open Scope Q_scope.

Lemma foldr_Qmax_le_iff (l : list Q) (u : Q) :
  foldr Qmax 0 l <= u <-> 0 <= u /\ Forall (fun x => x <= u) l.
Proof.
  induction l as [| x l IH]; simpl.
  - split; [intros H; split; [done | constructor] | by intros [H _]].
  - rewrite Q.max_lub_iff, IH, Forall_cons. tauto.
Qed.

Lemma foldr_Qmax_nonneg (l : list Q) : 0 <= foldr Qmax 0 l.
Proof. apply (foldr_Qmax_le_iff l (foldr Qmax 0 l)). apply Qle_refl. Qed.

Lemma foldr_Qmax_elem (l : list Q) (x : Q) : x ∈ l -> x <= foldr Qmax 0 l.
Proof.
  intros Hx.
  pose proof (proj1 (foldr_Qmax_le_iff l _) (Qle_refl _)) as [_ Hall].
  by apply (proj1 (Forall_forall _ _) Hall).
Qed.

Section Bounds.

Context {pointType : Type} (norm_diff : pointType -> pointType -> Q).
Implicit Types (n c d : Node pointType) (p : pointType).

Lemma descendants_children n :
  descendants n = flat_map (fun c => c :: descendants c) (children n).
Proof. by destruct n. Qed.

Lemma bound_ok_iff n :
  bound_ok norm_diff n <->
  0 <= maxdistUB n
  /\ Forall (fun d => dist_node norm_diff n d <= maxdistUB n) (descendants n).
Proof.
  unfold bound_ok, max_desc_dist. rewrite foldr_Qmax_le_iff.
  by rewrite Forall_map.
Qed.

Lemma calc_maxdist_node_eq n :
  calc_maxdist_node norm_diff n =
  let cs' := map (calc_maxdist_node norm_diff) (children n) in
  mkNode (_p n) cs' (level n)
    (foldr Qmax 0 (map (fun c => norm_diff (_p n) (_p c) + maxdistUB c) cs'))
    (ID n) (UID n) (ext_prop n).
Proof. by destruct n. Qed.

Lemma calc_maxdist_node_ok (Hm : metric norm_diff) n :
  Forall (fun m => bound_ok norm_diff m /\ bound_rec norm_diff m)
         (subnodes (calc_maxdist_node norm_diff n)).
Proof.
  induction n as [n IH] using Node_forall_ind.
  rewrite calc_maxdist_node_eq. cbv zeta.
  set (cs' := map (calc_maxdist_node norm_diff) (children n)).
  set (ub := foldr Qmax 0 _).
  assert (Hcs : Forall (fun c => Forall (fun m => bound_ok norm_diff m /\ bound_rec norm_diff m)
                                   (subnodes c)) cs').
  { subst cs'. by apply Forall_map. }
  assert (Hub : forall c, c ∈ cs' -> norm_diff (_p n) (_p c) + maxdistUB c <= ub).
  { intros c Hc. apply foldr_Qmax_elem.
    apply (list_elem_of_fmap_2 (fun c => norm_diff (_p n) (_p c) + maxdistUB c)).
    done. }
  unfold subnodes at 1. apply Forall_cons. split; [split |].
  - apply bound_ok_iff. simpl. split; [apply foldr_Qmax_nonneg |].
    apply Forall_flat_map. apply Forall_forall. intros c Hc.
    pose proof (proj1 (Forall_forall _ _) Hcs c Hc) as Hsub.
    unfold subnodes in Hsub. apply Forall_cons in Hsub as [[Hc_ok _] _].
    apply bound_ok_iff in Hc_ok as [Hc0 Hcd].
    specialize (Hub c Hc). unfold dist_node in *. simpl.
    apply Forall_cons. split.
    + eapply Qle_trans; [| exact Hub].
      rewrite <- (Qplus_0_r (norm_diff _ _)) at 1.
      by apply Qplus_le_r.
    + eapply Forall_impl; [exact Hcd |]. intros d Hd. simpl in Hd.
      eapply Qle_trans; [apply (metric_triangle _ Hm _ (_p c)) |].
      eapply Qle_trans; [| exact Hub]. by apply Qplus_le_r.
  - reflexivity.
  - simpl. apply Forall_flat_map. eapply Forall_impl; [exact Hcs |].
    intros c Hc. exact Hc.
Qed.

(** C3, as the recurrence gives it: after [calc_maxdist], every node of
    the tree satisfies the recurrence
    [maxdistUB = max over children c of (dist(n, c) + c.maxdistUB)]
    (0 at a leaf) and its [maxdistUB] is at least the largest distance to
    a descendant. *)
Theorem calc_maxdist_upper_bound (t : SGTree pointType) (r : Node pointType) :
  metric norm_diff ->
  root (calc_maxdist norm_diff t) = Some r ->
  Forall (fun n =>
            max_desc_dist norm_diff n <= maxdistUB n
            /\ maxdistUB n =
               foldr Qmax 0
                 (map (fun c => dist_node norm_diff n c + maxdistUB c)
                      (children n))
            /\ (children n = [] -> maxdistUB n = 0))
         (subnodes r).
Proof.
  intros Hm Hr. unfold calc_maxdist in Hr. simpl in Hr.
  destruct (root t) as [r0 |]; simpl in Hr; [| discriminate].
  injection Hr as <-.
  eapply Forall_impl; [apply (calc_maxdist_node_ok Hm) |].
  intros n [Hok Hrec]. split; [exact Hok |]. split; [exact Hrec |].
  intros Hleaf. unfold bound_rec in Hrec. by rewrite Hleaf in Hrec.
Qed.

Lemma descendants_setChild n p (uid new_id : Z) :
  descendants (fst (setChild n p uid new_id))
  = descendants n ++ [snd (setChild n p uid new_id)].
Proof.
  rewrite (descendants_children (fst _)). simpl.
  rewrite flat_map_app. simpl. by rewrite <- descendants_children.
Qed.

Lemma descendants_erase n n' (pos : nat) d :
  erase n pos = Some n' -> d ∈ descendants n' -> d ∈ descendants n.
Proof.
  intros He Hd.
  assert (Hsub : forall c, c ∈ children n' -> c ∈ children n).
  { apply erase_children in He as (l & b & Hl & Hpos & ->). simpl.
    intros c Hc. rewrite (swap_remove_perm l b pos Hpos) in Hc.
    rewrite Hl. by eapply list_elem_of_delete_inv. }
  rewrite descendants_children in Hd. rewrite descendants_children.
  apply list_elem_of_In, in_flat_map in Hd as (c & Hc & Hd).
  apply list_elem_of_In, in_flat_map. exists c. split; [| done].
  apply list_elem_of_In, Hsub, list_elem_of_In, Hc.
Qed.

(** C4, as the code has it: a node made by [setChild] has bound 0, no
    descendant, and so a valid bound; [setChild] leaves the bound of the
    node it is called on as it was, which stays valid exactly when the new
    point is within it; [erase] keeps a valid bound valid. *)
Theorem maxdistUB_conservative n p (uid new_id : Z) :
  bound_ok norm_diff n ->
  let n' := fst (setChild n p uid new_id) in
  let c := snd (setChild n p uid new_id) in
  maxdistUB c = 0 /\ descendants c = [] /\ bound_ok norm_diff c
  /\ maxdistUB n' = maxdistUB n
  /\ (bound_ok norm_diff n' <-> dist norm_diff n p <= maxdistUB n)
  /\ (forall pos n'', erase n pos = Some n'' -> bound_ok norm_diff n'').
Proof.
  intros Hok. cbv zeta.
  split; [done |]. split; [done |]. split; [apply Qle_refl |].
  split; [done |]. split.
  - rewrite (bound_ok_iff (fst _)), descendants_setChild, Forall_app.
    apply bound_ok_iff in Hok as [H0 Hd]. simpl.
    rewrite Forall_singleton. unfold dist_node, dist. simpl. tauto.
  - intros pos n'' He. pose proof He as He'. unfold erase in He'.
    destruct (last (children n)); [| done].
    destruct (decide _); [| done]. injection He' as <-.
    apply bound_ok_iff in Hok as [H0 Hd]. apply bound_ok_iff. simpl.
    split; [done |]. apply Forall_forall. intros d Hin.
    apply (descendants_erase _ _ _ _ He) in Hin.
    exact (proj1 (Forall_forall _ _) Hd d Hin).
Qed.

Lemma calc_maxdist_bounds_ok (Hm : metric norm_diff) n :
  bounds_ok norm_diff (calc_maxdist_node norm_diff n).
Proof.
  unfold bounds_ok.
  eapply Forall_impl; [apply (calc_maxdist_node_ok Hm) |].
  by intros m [Hb _].
Qed.

End Bounds.

(** ** Insertion *)

Section Insertion.

Context {pointType : Type} (norm_diff : pointType -> pointType -> Q).
Implicit Types (n c r : Node pointType) (p : pointType) (pd : list Q).

Lemma index_in_table pd (L : Z) :
  in_table pd L -> table_positive pd ->
  exists cd, index pd (L + 1024) = Some cd /\ 0 < cd.
Proof.
  intros [Hlo Hhi] Hpos. unfold index.
  destruct (Z.ltb_spec (L + 1024) 0) as [Hneg | _]; [lia |].
  destruct (lookup_lt_is_Some_2 pd (Z.to_nat (L + 1024))) as [cd Hcd]; [lia |].
  exists cd. split; [done |].
  apply (proj1 (Forall_forall _ _) Hpos). by eapply list_elem_of_lookup_2.
Qed.

Lemma index_last pd (L : Z) (top : Q) :
  in_table pd L -> last pd = Some top ->
  (L + 1024 = Z.of_nat (length pd) - 1)%Z -> index pd (L + 1024) = Some top.
Proof.
  intros [Hlo Hhi] Hlast Heq. unfold index.
  destruct (Z.ltb_spec (L + 1024) 0) as [Hneg | _]; [lia |].
  rewrite last_lookup in Hlast. rewrite <- Hlast. f_equal. lia.
Qed.

Lemma child_levels_children pd n :
  child_levels_in_table pd n ->
  (children n <> [] -> in_table pd (level n - 1))
  /\ Forall (child_levels_in_table pd) (children n).
Proof.
  unfold child_levels_in_table, subnodes. rewrite Forall_cons.
  rewrite descendants_children. intros [Hn Hd]. split; [done |].
  apply Forall_flat_map in Hd. exact Hd.
Qed.

Lemma child_levels_lift pd r :
  in_table pd (level r) -> child_levels_in_table pd r ->
  child_levels_in_table pd (lift_root r).
Proof.
  intros Hin Hr. unfold child_levels_in_table, subnodes.
  apply Forall_cons. split.
  - intros _. simpl. replace (level r + 1 - 1)%Z with (level r) by lia. done.
  - simpl. by rewrite app_nil_r.
Qed.

Lemma insert_at_eq pd current p (uid : Z) (d : Q) (mins cnt : Z) :
  insert_at norm_diff pd current p uid d mins cnt =
  if Qeq_bool d 0 then Some (false, current, mins, cnt)
  else scan_children norm_diff pd p uid current mins cnt
         (fun c => insert_at norm_diff pd c p uid (dist norm_diff c p) mins cnt)
         [] (children current).
Proof. by destruct current. Qed.

Lemma observed_at_eq pd current p (d : Q) :
  observed_at norm_diff pd current p d =
  current ::
  (if Qeq_bool d 0 then []
   else observed_scan norm_diff pd p current
          (fun c => observed_at norm_diff pd c p (dist norm_diff c p))
          (children current)).
Proof. by destruct current. Qed.

Lemma set_children_id n : set_children n (children n) = n.
Proof. by destruct n. Qed.

Lemma scan_children_result pd p (uid : Z) current (mins cnt : Z)
    (enter : Node pointType -> option (bool * Node pointType * Z * Z))
    (obs : Node pointType -> list (Node pointType)) :
  table_positive pd ->
  forall rest seen,
    Forall (fun c => descent_ok norm_diff p cnt mins c (enter c) (obs c)) rest ->
    (rest <> [] -> in_table pd (level current - 1)) ->
    descent_ok norm_diff p cnt mins (set_children current (seen ++ rest))
      (scan_children norm_diff pd p uid current mins cnt enter seen rest)
      (observed_scan norm_diff pd p current obs rest).
Proof.
  intros Hpos.
  induction rest as [| c rest' IHrest]; intros seen Hrec Htab.
  - eexists _, _, _, _. split; [reflexivity |]. split.
    + intros Hex. by apply Exists_nil in Hex.
    + done.
  - apply Forall_cons in Hrec as [Hc Hrec].
    destruct (index_in_table pd (level current - 1) (Htab ltac:(done)) Hpos)
      as (cd & Hcd & Hcdpos).
    simpl. rewrite Hcd. simpl.
    destruct (Qle_bool (dist norm_diff c p) cd) eqn:Hcand.
    + destruct Hc as (res & c' & mins' & cnt' & Hins & Hdup & Hnodup).
      rewrite Hins. simpl.
      eexists _, _, _, _. split; [reflexivity |]. split.
      * intros Hex. destruct (Hdup Hex) as (-> & -> & -> & ->). done.
      * intros Hno. by apply Hnodup.
    + assert (Hcnz : ~ is_duplicate norm_diff p c).
      { unfold is_duplicate. intros Hd.
        assert (Hle : dist norm_diff c p <= cd).
        { rewrite Hd. by apply Qlt_le_weak. }
        apply Qle_bool_iff in Hle. congruence. }
      destruct (IHrest (seen ++ [c]) Hrec)
        as (res & cur' & mins' & cnt' & Hscan & Hdup & Hnodup).
      { intros _. apply Htab. done. }
      exists res, cur', mins', cnt'. split; [exact Hscan |]. split.
      * intros Hex. apply Exists_cons in Hex as [Hex | Hex]; [done |].
        rewrite <- app_assoc in Hdup. simpl in Hdup. by apply Hdup.
      * intros Hno. apply Hnodup. intros Hex. apply Hno.
        by apply Exists_cons_tl.
Qed.

Lemma insert_at_result pd p (uid : Z) :
  table_positive pd ->
  forall current (mins cnt : Z),
    child_levels_in_table pd current ->
    descent_ok norm_diff p cnt mins current
      (insert_at norm_diff pd current p uid (dist norm_diff current p) mins cnt)
      (observed_at norm_diff pd current p (dist norm_diff current p)).
Proof.
  intros Hpos current.
  induction current as [current IH] using Node_forall_ind.
  intros mins cnt Hlev.
  apply child_levels_children in Hlev as [Hhere Hbelow].
  rewrite insert_at_eq, observed_at_eq.
  destruct (Qeq_bool (dist norm_diff current p) 0) eqn:Hz.
  { exists false, current, mins, cnt. split; [done |]. split; [by intros _ |].
    intros Hno. exfalso. apply Hno. apply Exists_cons_hd.
    by apply Qeq_bool_iff. }
  assert (Hcur : ~ is_duplicate norm_diff p current).
  { intros Hd. apply Qeq_bool_iff in Hd. unfold is_duplicate in *. congruence. }
  destruct (scan_children_result pd p uid current mins cnt
              (fun c => insert_at norm_diff pd c p uid (dist norm_diff c p) mins cnt)
              (fun c => observed_at norm_diff pd c p (dist norm_diff c p))
              Hpos (children current) [])
    as (res & cur' & mins' & cnt' & Hscan & Hdup & Hnodup).
  { apply Forall_forall. intros c Hc.
    apply (proj1 (Forall_forall _ _) IH c Hc).
    apply (proj1 (Forall_forall _ _) Hbelow c Hc). }
  { exact Hhere. }
  simpl in Hdup. rewrite set_children_id in Hdup.
  exists res, cur', mins', cnt'. split; [exact Hscan |]. split.
  - intros Hex. apply Exists_cons in Hex as [Hex | Hex]; [done |].
    by apply Hdup.
  - intros Hno. apply Hnodup. intros Hex. apply Hno. by apply Exists_cons_tl.
Qed.

(** Root promotion returns within the table; either it leaves the root
    and [max_scale] as they were, or the point is outside the covering
    radius of the child of the root it ends with. *)
Lemma promote_result pd (d0 : Q) (fuel : nat) :
  table_positive pd ->
  (exists top, last pd = Some top /\ d0 <= top) ->
  forall r (maxs : Z),
    in_table pd (level r) -> child_levels_in_table pd r ->
    (Z.of_nat (length pd) - (level r + 1024) <= Z.of_nat fuel)%Z ->
    exists r1 maxs',
      promote fuel pd r maxs d0 = Some (r1, maxs')
      /\ _p r1 = _p r /\ child_levels_in_table pd r1
      /\ ((r1 = r /\ maxs' = maxs)
          \/ exists r0 cd, r1 = lift_root r0 /\ _p r0 = _p r
               /\ covdist pd r0 = Some cd /\ cd < d0 /\ 0 < cd).
Proof.
  intros Hpos (top & Hlast & Htop).
  induction fuel as [| fuel IH]; intros r maxs Hin Hlev Hfuel.
  { destruct Hin. lia. }
  destruct (index_in_table pd (level r) Hin Hpos) as (cd & Hcd & Hcdpos).
  simpl. unfold covdist at 1. rewrite Hcd. simpl.
  destruct (Qle_bool d0 cd) eqn:Hle; simpl.
  { exists r, maxs. repeat split; [done | by left]. }
  assert (Hlt : cd < d0).
  { apply Qnot_le_lt. intros H. apply Qle_bool_iff in H. congruence. }
  assert (Hnottop : (level r + 1024 <> Z.of_nat (length pd) - 1)%Z).
  { intros Heq. rewrite (index_last pd (level r) top Hin Hlast Heq) in Hcd.
    injection Hcd as ->. apply (Qlt_not_le _ _ Hlt Htop). }
  destruct (IH (lift_root r) (level (lift_root r)))
    as (r1 & maxs' & Hprom & Hp & Hlev1 & Hcase).
  { destruct Hin. unfold in_table. simpl. lia. }
  { by apply child_levels_lift. }
  { simpl. lia. }
  exists r1, maxs'. split; [exact Hprom |]. split; [by rewrite Hp |].
  split; [exact Hlev1 |]. right.
  destruct Hcase as [[-> _] | (r0 & cd0 & -> & Hp0 & Hcov & Hlt0 & Hpos0)].
  - exists r, cd. by repeat split.
  - exists r0, cd0. by repeat split.
Qed.

(** After a promotion the descent looks at the new root and at its child,
    both further from the point than a positive radius. *)
Lemma observed_after_promotion pd p r0 (cd : Q) :
  covdist pd r0 = Some cd -> cd < dist norm_diff r0 p -> 0 < cd ->
  ~ Exists (is_duplicate norm_diff p)
      (observed_at norm_diff pd (lift_root r0) p (dist norm_diff r0 p)).
Proof.
  intros Hcov Hlt Hpos.
  assert (Hnz : ~ dist norm_diff r0 p == 0).
  { intros Hz. rewrite Hz in Hlt. apply (Qlt_not_le _ _ Hlt).
    by apply Qlt_le_weak. }
  rewrite observed_at_eq.
  destruct (Qeq_bool (dist norm_diff r0 p) 0) eqn:Hz.
  { by apply Qeq_bool_iff in Hz. }
  simpl. unfold covdist in Hcov.
  replace (level r0 + 1 - 1 + 1024)%Z with (level r0 + 1024)%Z by lia.
  rewrite Hcov.
  destruct (Qle_bool (dist norm_diff r0 p) cd) eqn:Hle.
  { apply Qle_bool_iff in Hle. by apply Qlt_not_le in Hlt. }
  intros Hex. apply Exists_cons in Hex as [Hex | Hex]; [done |].
  apply Exists_cons in Hex as [Hex | Hex]; [done |].
  by apply Exists_nil in Hex.
Qed.

(** C5: with a table of positive cells that covers the levels of the tree
    and the distance of the point to the root, [insert] returns; it returns
    [false] and the tree as it was when the descent meets a node at
    distance exactly zero from the point, and [true] (with [N] one more,
    or 1 for the first point) otherwise. *)
Theorem insert_duplicate (t : SGTree pointType) p (uid : Z) :
  table_positive (powdict t) ->
  insert_within_table norm_diff t p ->
  exists b t',
    insert norm_diff t p uid = Some (b, t')
    /\ (meets_duplicate norm_diff t p -> b = false /\ t' = t)
    /\ (~ meets_duplicate norm_diff t p ->
        b = true
        /\ N t' = match root t with
                  | None => 1%Z
                  | Some _ => to_unsigned (N t + 1)
                  end).
Proof.
  intros Hpos Hwithin. unfold insert, meets_duplicate, observed.
  destruct (root t) as [r |] eqn:Hroot.
  2: { eexists _, _. split; [reflexivity |]. split.
       - intros Hex. by apply Exists_nil in Hex.
       - done. }
  destruct (Hwithin r Hroot) as (Hin & Hlev & Htop).
  destruct (promote_result (powdict t) (dist norm_diff r p)
              (length (powdict t)) Hpos Htop r (max_scale t) Hin Hlev)
    as (r1 & maxs & Hprom & Hp & Hlev1 & Hcase).
  { destruct Hin. lia. }
  rewrite Hprom. simpl.
  assert (Hd : dist norm_diff r p = dist norm_diff r1 p).
  { unfold dist. by rewrite Hp. }
  rewrite Hd.
  destruct (insert_at_result (powdict t) p uid Hpos r1 (min_scale t) (N t) Hlev1)
    as (res & r2 & mins & cnt & Hins & Hdup & Hnodup).
  rewrite Hins. simpl.
  eexists _, _. split; [reflexivity |]. split.
  - intros Hex. destruct (Hdup Hex) as (-> & -> & -> & ->).
    split; [done |].
    destruct Hcase as [[-> ->] | (r0 & cd & -> & Hp0 & Hcov & Hlt & Hcd)].
    + destruct t. simpl in *. by rewrite Hroot.
    + exfalso.
      assert (Hd0 : dist norm_diff (lift_root r0) p = dist norm_diff r0 p)
        by done.
      rewrite Hd0 in Hex.
      refine (observed_after_promotion (powdict t) p r0 cd Hcov _ Hcd Hex).
      unfold dist in *. by rewrite Hp0.
  - intros Hno. by destruct (Hnodup Hno) as [-> ->].
Qed.

End Insertion.

(** ** The k-nearest-neighbour query *)

Section Query.

Context {pointType : Type} (norm_diff : pointType -> pointType -> Q).
Implicit Types (n c : Node pointType) (p : pointType).
Implicit Types (x y : Node pointType * Q) (h l fr : list (Node pointType * Q)).

Lemma knn_loop_process (fuel : nat) p (k : nat) fr h :
  knn_loop norm_diff fuel p k fr h
  = process norm_diff p k (explore norm_diff fuel p fr) h.
Proof.
  revert fr h. induction fuel as [| fuel IH]; intros fr h; [done |].
  simpl. destruct (pop_min fr) as [[[n lb] fr'] |]; [| done].
  simpl. destruct (exceeds lb (threshold k h)); [done |]. apply IH.
Qed.

(** *** The heap *)

Lemma heap_insert_perm x h : heap_insert x h ≡ₚ x :: h.
Proof.
  induction h as [| y h IH]; simpl; [done |].
  destruct (Qle_bool (snd y) (snd x)); [| done].
  rewrite IH. apply perm_swap.
Qed.

Lemma length_heap_insert x h : length (heap_insert x h) = S (length h).
Proof. by rewrite heap_insert_perm. Qed.

Lemma heap_insert_sorted x h :
  StronglySorted by_distance h -> StronglySorted by_distance (heap_insert x h).
Proof.
  induction h as [| y h IH]; intros Hs; simpl.
  - repeat constructor.
  - apply StronglySorted_inv in Hs as [Hs Hy].
    destruct (Qle_bool (snd y) (snd x)) eqn:Hle.
    + constructor; [by apply IH |].
      rewrite heap_insert_perm. constructor; [| done].
      by apply Qle_bool_iff.
    + assert (Hxy : snd x <= snd y).
      { apply Qlt_le_weak, Qnot_le_lt. intros H.
        apply Qle_bool_iff in H. congruence. }
      constructor; [by constructor |]. constructor; [done |].
      eapply Forall_impl; [exact Hy |]. intros z Hz. unfold by_distance in *.
      by eapply Qle_trans.
Qed.

Lemma sorted_take (k : nat) h :
  StronglySorted by_distance h -> StronglySorted by_distance (take k h).
Proof.
  revert k. induction h as [| y h IH]; intros k Hs; [by rewrite take_nil |].
  destruct k as [| k]; simpl; [constructor |].
  apply StronglySorted_inv in Hs as [Hs Hy].
  constructor; [by apply IH | by apply Forall_take].
Qed.

Lemma heap_push_sorted (k : nat) x h :
  StronglySorted by_distance h -> StronglySorted by_distance (heap_push k x h).
Proof. intros Hs. by apply sorted_take, heap_insert_sorted. Qed.

Lemma sorted_last h m :
  StronglySorted by_distance h -> last h = Some m ->
  Forall (fun y => snd y <= snd m) h.
Proof.
  intros Hs Hlast. apply last_Some in Hlast as [h' ->].
  apply Forall_app. split; [| apply Forall_singleton, Qle_refl].
  induction h' as [| y h' IH]; [constructor |].
  simpl in Hs. apply StronglySorted_inv in Hs as [Hs Hy].
  constructor; [| by apply IH].
  rewrite Forall_app, Forall_singleton in Hy. exact (proj2 Hy).
Qed.

Lemma process_sorted p (k : nat) l h :
  StronglySorted by_distance h ->
  StronglySorted by_distance (process norm_diff p k l h).
Proof.
  revert h. induction l as [| [n lb] l IH]; intros h Hs; simpl; [done |].
  destruct (exceeds lb (threshold k h)); [done |].
  by apply IH, heap_push_sorted.
Qed.

Lemma length_heap_push (k : nat) x h :
  length (heap_push k x h) = (k `min` S (length h))%nat.
Proof. unfold heap_push. by rewrite length_take, length_heap_insert. Qed.

Lemma process_length p (k : nat) l h :
  (length h <= k)%nat -> (length (process norm_diff p k l h) <= k)%nat.
Proof.
  revert h. induction l as [| [n lb] l IH]; intros h Hh; simpl; [done |].
  destruct (exceeds lb (threshold k h)); [done |].
  apply IH. rewrite length_heap_push. lia.
Qed.

(** Pushing into the first [k] entries and into the whole heap agree on
    the first [k] entries. *)
Lemma take_heap_insert_take (k : nat) x h :
  take k (heap_insert x (take k h)) = take k (heap_insert x h).
Proof.
  revert k. induction h as [| y h IH]; intros k.
  - by rewrite take_nil.
  - destruct k as [| k]; [done |]. simpl.
    destruct (Qle_bool (snd y) (snd x)); simpl; [by rewrite IH |].
    f_equal. destruct k as [| k]; [done |]. simpl. f_equal.
    rewrite take_take. f_equal. lia.
Qed.

(** An entry not closer than any of the first [k] goes behind them. *)
Lemma take_heap_insert_behind (k : nat) x h :
  (k <= length h)%nat ->
  Forall (fun y => snd y <= snd x) (take k h) ->
  take k (heap_insert x h) = take k h.
Proof.
  revert k. induction h as [| y h IH]; intros k Hk Hall.
  - simpl in Hk. by replace k with 0%nat by lia.
  - destruct k as [| k]; [done |]. simpl in *.
    apply Forall_cons in Hall as [Hy Hall].
    apply Qle_bool_iff in Hy. rewrite Hy. simpl. f_equal.
    apply IH; [lia | done].
Qed.

Lemma threshold_full (k : nat) h m :
  (k <= length h)%nat -> last h = Some m -> threshold k h = Some (snd m).
Proof.
  intros Hk Hlast. unfold threshold.
  destruct (decide (length h < k)%nat); [lia |]. by rewrite Hlast.
Qed.

Lemma exceeds_threshold (k : nat) h (lb : Q) :
  exceeds lb (threshold k h) = true ->
  (k <= length h)%nat /\ exists m, last h = Some m /\ snd m < lb.
Proof.
  unfold threshold, exceeds.
  destruct (decide (length h < k)%nat) as [| Hk]; [done |].
  destruct (last h) as [m |]; [| done]. simpl. intros Hex.
  split; [lia |]. exists m. split; [done |].
  apply Qnot_le_lt. intros Hle. apply Qle_bool_iff in Hle.
  rewrite Hle in Hex. done.
Qed.

Lemma exceeds_Some (lb t : Q) : t < lb -> exceeds lb (Some t) = true.
Proof.
  intros Hlt. simpl. destruct (Qle_bool lb t) eqn:Hle; [| done].
  apply Qle_bool_iff in Hle. by apply Qlt_not_le in Hlt.
Qed.

(** Entries that are all at least as far as the first [k1] of the heap
    leave these first [k1] as they are. *)
Lemma process_keeps_take p (k1 k2 : nat) l h :
  (k1 <= k2)%nat -> (k1 <= length h)%nat ->
  Forall (fun x => Forall (fun y => snd y <= dist norm_diff (fst x) p)
                          (take k1 h)) l ->
  take k1 (process norm_diff p k2 l h) = take k1 h.
Proof.
  intros Hk. revert h. induction l as [| [n lb] l IH]; intros h Hlen Hall.
  { done. }
  apply Forall_cons in Hall as [Hn Hall]. simpl in *.
  destruct (exceeds lb (threshold k2 h)); [done |].
  assert (Htake : take k1 (heap_push k2 (n, dist norm_diff n p) h) = take k1 h).
  { unfold heap_push. rewrite take_take, Nat.min_l by done.
    by apply take_heap_insert_behind. }
  rewrite IH.
  - exact Htake.
  - rewrite length_heap_push. lia.
  - by rewrite Htake.
Qed.

Lemma process_zero p l : process norm_diff p 0 l [] = [].
Proof. induction l as [| [n lb] l IH]; [done |]. simpl. exact IH. Qed.

(** The run with the smaller [k] keeps the first entries of the run with
    the larger one. *)
Lemma process_take p (k1 k2 : nat) l :
  (1 <= k1 <= k2)%nat -> admissible norm_diff p l ->
  forall h, StronglySorted by_distance h ->
    process norm_diff p k1 l (take k1 h)
    = take k1 (process norm_diff p k2 l h).
Proof.
  intros Hk. induction l as [| [n lb] l IH]; intros Hadm h Hs; [done |].
  destruct Hadm as [Hhead Hadm].
  destruct (exceeds lb (threshold k2 h)) eqn:Hex2.
  - (* the larger run stops: so does the smaller one *)
    simpl. rewrite Hex2.
    apply exceeds_threshold in Hex2 as (Hlen & m2 & Hlast2 & Hlt2).
    destruct (last (take k1 h)) as [m1 |] eqn:Hlast1.
    2: { apply last_None in Hlast1. apply (f_equal length) in Hlast1.
         rewrite length_take in Hlast1. simpl in Hlast1. lia. }
    rewrite (threshold_full k1 (take k1 h) m1);
      [| rewrite length_take; lia | done].
    rewrite exceeds_Some; [done |].
    eapply Qle_lt_trans; [| exact Hlt2].
    apply last_Some_elem_of in Hlast1.
    assert (Hall : Forall (fun y => snd y <= snd m2) (take k1 h))
      by (apply Forall_take, (sorted_last h m2 Hs Hlast2)).
    exact (proj1 (Forall_forall _ _) Hall m1 Hlast1).
  - destruct (exceeds lb (threshold k1 (take k1 h))) eqn:Hex1.
    + (* the smaller run stops: what follows is too far to change it *)
      simpl process at 1. rewrite Hex1. symmetry.
      apply exceeds_threshold in Hex1 as (Hlen & m1 & Hlast1 & Hlt1).
      rewrite length_take in Hlen.
      apply process_keeps_take; [lia | lia |].
      eapply Forall_impl; [exact Hhead |]. intros x Hx. simpl in Hx.
      eapply Forall_impl;
        [exact (sorted_last _ m1 (sorted_take k1 h Hs) Hlast1) |].
      intros y Hy. simpl in Hy.
      eapply Qle_trans; [exact Hy |].
      eapply Qle_trans; [apply Qlt_le_weak, Hlt1 | exact Hx].
    + (* both go on *)
      simpl. rewrite Hex1, Hex2.
      rewrite <- IH; [| done | by apply heap_push_sorted].
      f_equal. unfold heap_push.
      rewrite take_heap_insert_take, take_take. f_equal. lia.
Qed.

(** *** The frontier *)

Lemma pop_min_None fr : pop_min fr = None -> fr = [].
Proof.
  destruct fr as [| x fr]; [done |]. simpl.
  destruct (pop_min fr) as [[y fr'] |]; [| done].
  by destruct (Qle_bool (snd x) (snd y)).
Qed.

Lemma pop_min_Some fr x fr' :
  pop_min fr = Some (x, fr') ->
  fr ≡ₚ x :: fr' /\ Forall (fun y => snd x <= snd y) fr.
Proof.
  revert x fr'. induction fr as [| x0 fr IH]; intros x fr' Hpop; [done |].
  simpl in Hpop. destruct (pop_min fr) as [[y rest] |] eqn:Hrest.
  - destruct (IH y rest eq_refl) as [Hperm Hmin].
    destruct (Qle_bool (snd x0) (snd y)) eqn:Hle; injection Hpop as <- <-.
    + split; [done |]. apply Qle_bool_iff in Hle.
      constructor; [apply Qle_refl |].
      eapply Forall_impl; [exact Hmin |]. intros z Hz. simpl in Hz.
      by eapply Qle_trans.
    + split; [rewrite Hperm; apply perm_swap |].
      constructor; [| done].
      apply Qlt_le_weak, Qnot_le_lt. intros H.
      apply Qle_bool_iff in H. congruence.
  - injection Hpop as <- <-. apply pop_min_None in Hrest as ->.
    split; [done |]. apply Forall_singleton, Qle_refl.
Qed.

Lemma descendants_subnodes n :
  descendants n = flat_map subnodes (children n).
Proof. by destruct n. Qed.

Lemma subnodes_child n c m : c ∈ children n -> m ∈ subnodes c -> m ∈ subnodes n.
Proof.
  intros Hc Hm. change (m ∈ n :: descendants n). apply list_elem_of_further.
  rewrite descendants_subnodes. apply list_elem_of_In, in_flat_map.
  exists c. split; by apply list_elem_of_In.
Qed.

Lemma bounds_ok_child n c :
  bounds_ok norm_diff n -> c ∈ children n -> bounds_ok norm_diff c.
Proof.
  unfold bounds_ok. rewrite !Forall_forall. intros Hn Hc m Hm.
  apply Hn. by eapply subnodes_child.
Qed.

Lemma frontier_of_ok p n :
  bounds_ok norm_diff n ->
  frontier_ok norm_diff p (frontier_of norm_diff p (children n)).
Proof.
  intros Hn. unfold frontier_ok, frontier_of. apply Forall_map, Forall_forall.
  intros c Hc. simpl. split; [done |]. by eapply bounds_ok_child.
Qed.

(** The lower bound of a node with a valid bound is below the distance of
    the node and of every node below it. *)
Lemma lower_bound_le p n m :
  metric norm_diff -> bounds_ok norm_diff n -> m ∈ subnodes n ->
  lower_bound norm_diff n p <= dist norm_diff m p.
Proof.
  intros Hm Hn Hin. unfold lower_bound, dist.
  pose proof (metric_nonneg _ Hm (_p m) p) as Hnn.
  unfold bounds_ok, subnodes in Hn. apply Forall_cons in Hn as [Hn _].
  apply bound_ok_iff in Hn as [Hub Hdesc].
  apply Q.max_lub; [done |].
  apply elem_of_cons in Hin as [-> | Hin]; [lra |].
  pose proof (proj1 (Forall_forall _ _) Hdesc m Hin) as Hd. simpl in Hd.
  unfold dist_node in Hd.
  pose proof (metric_triangle _ Hm (_p n) (_p m) p). lra.
Qed.

Lemma explore_reach (fuel : nat) p fr x :
  x ∈ explore norm_diff fuel p fr ->
  exists a, a ∈ fr /\ fst x ∈ subnodes (fst a).
Proof.
  revert fr. induction fuel as [| fuel IH]; intros fr Hx; simpl in Hx.
  { by apply elem_of_nil in Hx. }
  destruct (pop_min fr) as [[[n lb] fr'] |] eqn:Hpop.
  2: { by apply elem_of_nil in Hx. }
  apply pop_min_Some in Hpop as [Hperm _].
  assert (Hn : (n, lb) ∈ fr) by (rewrite Hperm; apply list_elem_of_here).
  apply elem_of_cons in Hx as [-> | Hx].
  { exists (n, lb). split; [done |]. apply list_elem_of_here. }
  destruct (IH _ Hx) as (a & Ha & Hsub).
  apply elem_of_app in Ha as [Ha | Ha].
  - exists a. split; [| done]. rewrite Hperm. by apply list_elem_of_further.
  - exists (n, lb). split; [done |]. simpl.
    unfold frontier_of in Ha. apply list_elem_of_fmap in Ha as (c & -> & Hc).
    by eapply subnodes_child.
Qed.

Lemma explore_admissible (fuel : nat) p fr :
  metric norm_diff -> frontier_ok norm_diff p fr ->
  admissible norm_diff p (explore norm_diff fuel p fr).
Proof.
  intros Hm. revert fr. induction fuel as [| fuel IH]; intros fr Hfr; [done |].
  simpl. destruct (pop_min fr) as [[[n lb] fr'] |] eqn:Hpop; [| done].
  apply pop_min_Some in Hpop as [Hperm Hmin].
  unfold frontier_ok in Hfr. pose proof Hfr as Hfr0.
  rewrite Hperm in Hfr. apply Forall_cons in Hfr as [[Hlb Hn] Hfr'].
  simpl in Hlb, Hn.
  assert (Hnext : frontier_ok norm_diff p
                    (fr' ++ frontier_of norm_diff p (children n))).
  { apply Forall_app. split; [done | by apply frontier_of_ok]. }
  split; [| by apply IH].
  constructor.
  { simpl. rewrite Hlb. apply lower_bound_le; [done | done |].
    apply list_elem_of_here. }
  apply Forall_forall. intros x Hx. simpl.
  destruct (explore_reach _ _ _ _ Hx) as (a & Ha & Hsub).
  apply elem_of_app in Ha as [Ha | Ha].
  - assert (Hin : a ∈ fr) by (rewrite Hperm; by apply list_elem_of_further).
    pose proof (proj1 (Forall_forall _ _) Hmin a Hin) as Hle. simpl in Hle.
    destruct (proj1 (Forall_forall _ _) Hfr0 a Hin) as [Hlba Hoka].
    eapply Qle_trans; [exact Hle |]. rewrite Hlba.
    by apply lower_bound_le.
  - unfold frontier_of in Ha. apply list_elem_of_fmap in Ha as (c & -> & Hc).
    rewrite Hlb. apply lower_bound_le; [done | done |].
    by eapply subnodes_child.
Qed.

(** *** Fuel *)

Lemma frontier_size_perm fr fr' : fr ≡ₚ fr' -> frontier_size fr = frontier_size fr'.
Proof.
  intros Hperm. unfold frontier_size.
  by rewrite (Permutation_flat_map _ Hperm).
Qed.

Lemma frontier_size_children p n :
  frontier_size (frontier_of norm_diff p (children n)) = length (descendants n).
Proof.
  unfold frontier_size, frontier_of. rewrite descendants_subnodes.
  f_equal. induction (children n) as [| c cs IH]; [done |]. simpl.
  by rewrite IH.
Qed.

(** Fuel beyond the number of nodes of the frontier changes nothing. *)
Lemma explore_fuel (fuel extra : nat) p fr :
  (frontier_size fr <= fuel)%nat ->
  explore norm_diff (fuel + extra) p fr = explore norm_diff fuel p fr.
Proof.
  revert fr. induction fuel as [| fuel IH]; intros fr Hsize.
  - destruct fr as [| a fr].
    + by destruct extra.
    + unfold frontier_size in Hsize. simpl in Hsize. lia.
  - simpl. destruct (pop_min fr) as [[[n lb] fr'] |] eqn:Hpop; [| done].
    f_equal. apply IH.
    apply pop_min_Some in Hpop as [Hperm _].
    rewrite (frontier_size_perm _ _ Hperm) in Hsize.
    unfold frontier_size in *. rewrite flat_map_app, length_app.
    fold (frontier_size (frontier_of norm_diff p (children n))).
    rewrite frontier_size_children. simpl in Hsize.
    rewrite length_app in Hsize. lia.
Qed.

Lemma kNearestNeighbours_fuel (t : SGTree pointType) p (k extra : nat) r :
  root t = Some r ->
  knn_loop norm_diff (length (subnodes r) + extra) p k
    [(r, lower_bound norm_diff r p)] []
  = kNearestNeighbours norm_diff t p k.
Proof.
  intros Hr. unfold kNearestNeighbours. rewrite Hr.
  rewrite !knn_loop_process. f_equal. apply explore_fuel.
  unfold frontier_size. simpl. by rewrite app_nil_r.
Qed.

(** C9, on valid bounds: each result of [kNearestNeighbours] is in
    ascending order of distance and has at most [k] entries; when the
    [maxdistUB] of every node is an upper bound of the distances to its
    descendants, the result for [k1 < k2] is the first [k1] entries of the
    result for [k2]. *)
Theorem kNearestNeighbours_prefix (t : SGTree pointType) p (k1 k2 : nat) :
  (k1 < k2)%nat ->
  StronglySorted by_distance (kNearestNeighbours norm_diff t p k1)
  /\ StronglySorted by_distance (kNearestNeighbours norm_diff t p k2)
  /\ (length (kNearestNeighbours norm_diff t p k1) <= k1)%nat
  /\ (metric norm_diff ->
      (forall r, root t = Some r -> bounds_ok norm_diff r) ->
      kNearestNeighbours norm_diff t p k1
        `prefix_of` kNearestNeighbours norm_diff t p k2
      /\ kNearestNeighbours norm_diff t p k1
         = take k1 (kNearestNeighbours norm_diff t p k2)).
Proof.
  intros Hk. unfold kNearestNeighbours.
  destruct (root t) as [r |] eqn:Hroot.
  2: { split; [constructor |]. split; [constructor |].
       split; [simpl; lia |]. intros _ _.
       split; [done | by rewrite take_nil]. }
  rewrite !knn_loop_process.
  split; [apply process_sorted; constructor |].
  split; [apply process_sorted; constructor |].
  split; [apply process_length; simpl; lia |].
  intros Hm Hok.
  set (l := explore norm_diff (length (subnodes r)) p
              [(r, lower_bound norm_diff r p)]).
  assert (Heq : process norm_diff p k1 l []
                = take k1 (process norm_diff p k2 l [])).
  { destruct k1 as [| k1]; [by rewrite process_zero |].
    rewrite <- (process_take p (S k1) k2 l); [by rewrite take_nil | lia | |].
    - apply explore_admissible; [done |].
      apply Forall_singleton. split; [done |]. by apply Hok.
    - constructor. }
  split; [| exact Heq]. rewrite Heq. apply prefix_take.
Qed.

End Query.

(** ** Laws of the node operations *)

Section NodeLaws.

Context {pointType : Type}.
Implicit Types (n c : Node pointType) (p : pointType) (pd : list Q).

Local Open Scope Z_scope.

Lemma setChild_children n p (uid new_id : Z) :
  children (fst (setChild n p uid new_id))
  = children n ++ [snd (setChild n p uid new_id)].
Proof. done. Qed.

Lemma set_children_twice n (cs cs' : list (Node pointType)) :
  set_children (set_children n cs) cs' = set_children n cs'.
Proof. done. Qed.

(** X1: erasing the last position right after [setChild] gives the node
    back as it was before the call. *)
Theorem setChild_erase_last n p (uid new_id : Z) :
  erase (fst (setChild n p uid new_id)) (length (children n)) = Some n.
Proof.
  unfold erase. rewrite setChild_children, last_snoc.
  destruct (decide _) as [_ | Hno].
  2: { exfalso. apply Hno. rewrite length_app. simpl. lia. }
  rewrite swap_remove_last. simpl.
  by rewrite set_children_twice, set_children_id.
Qed.

(** X2: erasing an older position right after [setChild] puts the new
    child in the place of the erased one and leaves every other child
    where it was. *)
Theorem setChild_erase_replace n p (uid new_id : Z) (pos : nat) :
  (pos < length (children n))%nat ->
  erase (fst (setChild n p uid new_id)) pos
  = Some (set_children n (<[pos := snd (setChild n p uid new_id)]> (children n))).
Proof.
  intros Hpos. unfold erase. rewrite setChild_children, last_snoc.
  destruct (decide _) as [_ | Hno].
  2: { exfalso. apply Hno. rewrite length_app. simpl. lia. }
  rewrite insert_app_l by done. rewrite removelast_last. done.
Qed.

(** X3: erasing one of the last two positions keeps the order of the
    remaining children. *)
Theorem erase_order_kept n (pos : nat) n' :
  erase n pos = Some n' ->
  (length (children n) <= pos + 2)%nat ->
  children n' = delete pos (children n).
Proof.
  intros He Hlen. apply erase_children in He as (l & b & Hl & Hpos & ->).
  rewrite Hl in *. clear Hl. simpl. rewrite length_app in Hpos, Hlen.
  simpl in Hpos, Hlen.
  assert (Hcases : pos = length l \/ S pos = length l) by lia.
  destruct Hcases as [-> | Hlast].
  - rewrite swap_remove_last.
    by rewrite (delete_middle l [] b), app_nil_r.
  - rewrite swap_remove_take_drop by lia.
    rewrite delete_take_drop, take_app_le, drop_app_le by lia.
    by rewrite Hlast, drop_all.
Qed.

Lemma erase_children_perm n (pos : nat) n' :
  erase n pos = Some n' ->
  exists c, children n !! pos = Some c /\ children n ≡ₚ c :: children n'.
Proof.
  intros He. apply erase_children in He as (l & b & Hl & Hpos & ->).
  rewrite Hl. simpl.
  destruct (lookup_lt_is_Some_2 (l ++ [b]) pos Hpos) as [c Hc].
  exists c. split; [done |].
  rewrite (swap_remove_perm l b pos Hpos). by apply delete_Permutation.
Qed.

Lemma erase_descendants_perm n (pos : nat) n' :
  erase n pos = Some n' ->
  exists c, children n !! pos = Some c
    /\ descendants n ≡ₚ subnodes c ++ descendants n'.
Proof.
  intros He. destruct (erase_children_perm n pos n' He) as (c & Hc & Hperm).
  exists c. split; [done |].
  rewrite !descendants_subnodes.
  by rewrite (Permutation_flat_map subnodes Hperm).
Qed.

(** X4: [erase] takes the child at [pos] out with everything below it and
    nothing else: the nodes below the node are those of the erased child
    together with those left below the node. *)
Theorem erase_subtree n (pos : nat) n' :
  erase n pos = Some n' ->
  exists c, children n !! pos = Some c
    /\ descendants n ≡ₚ subnodes c ++ descendants n'
    /\ length (subnodes n) = (length (subnodes c) + length (subnodes n'))%nat.
Proof.
  intros He. destruct (erase_descendants_perm n pos n' He) as (c & Hc & Hperm).
  exists c. split; [done |]. split; [done |].
  change (length (subnodes n)) with (S (length (descendants n))).
  change (length (subnodes n')) with (S (length (descendants n'))).
  rewrite Hperm, length_app. lia.
Qed.

Lemma erase_fields n (pos : nat) n' :
  erase n pos = Some n' -> level n' = level n /\ UID n' = UID n.
Proof. intros He. by apply erase_children in He as (l & b & _ & _ & ->). Qed.

(** X5: [setChild] and [erase] keep the levels consistent: if every child
    is one level below its parent at the node and below it, it is so
    after the call. *)
Theorem levels_consistent_kept n :
  levels_consistent n ->
  (forall p (uid new_id : Z),
      levels_consistent (fst (setChild n p uid new_id)))
  /\ (forall (pos : nat) n', erase n pos = Some n' -> levels_consistent n').
Proof.
  unfold levels_consistent, subnodes. rewrite Forall_cons.
  intros [Hn Hbelow]. split.
  - intros p uid new_id. rewrite descendants_setChild.
    apply Forall_cons. split; [| apply Forall_app; split; [done |]].
    + rewrite setChild_children. apply Forall_app. split; [done |].
      by apply Forall_singleton.
    + apply Forall_singleton. constructor.
  - intros pos n' He.
    destruct (erase_fields n pos n' He) as [Hlev _].
    destruct (erase_children_perm n pos n' He) as (c & _ & Hperm).
    destruct (erase_descendants_perm n pos n' He) as (c' & _ & Hdesc).
    apply Forall_cons. split.
    + rewrite Hlev. rewrite Hperm in Hn. by apply Forall_cons in Hn as [_ Hn].
    + rewrite Hdesc in Hbelow. by apply Forall_app in Hbelow as [_ Hbelow].
Qed.

(** X6: the covering distance of the child [setChild] makes is the
    separating distance of the node it is made under, whatever the table;
    so it is for every child of a node whose levels are consistent. *)
Theorem covdist_child_sepdist pd n :
  (forall p (uid new_id : Z),
      covdist pd (snd (setChild n p uid new_id)) = sepdist pd n)
  /\ (levels_consistent n ->
      Forall (fun c => covdist pd c = sepdist pd n) (children n)).
Proof.
  split.
  - intros p uid new_id. unfold covdist, sepdist. simpl. f_equal. lia.
  - unfold levels_consistent, subnodes. rewrite Forall_cons. intros [Hn _].
    eapply Forall_impl; [exact Hn |]. intros c Hc. simpl in Hc.
    unfold covdist, sepdist. rewrite Hc. f_equal. lia.
Qed.

Lemma to_unsigned_int (a : Z) :
  int_range a ->
  (0 <= a -> to_unsigned a = a) /\ (a < 0 -> to_unsigned a = a + 2 ^ 32).
Proof.
  unfold int_range, to_unsigned. change (2 ^ 31) with 2147483648.
  change (2 ^ 32) with 4294967296. intros Ha.
  pose proof (Z.mod_pos_bound a 4294967296 ltac:(lia)) as Hbound.
  pose proof (Z.div_mod a 4294967296 ltac:(lia)) as Hdiv.
  split; intros Hsign; lia.
Qed.

(** X7: the [ID] [setChild] stores tells the [new_id] it was given: a
    non-negative [new_id] is stored as it is, a negative one is stored
    above every [int], and two [int]s stored as the same [ID] are
    equal. *)
Theorem setChild_ID_faithful n n' p p' (uid uid' a b : Z) :
  int_range a -> int_range b ->
  (0 <= a -> ID (snd (setChild n p uid a)) = a)
  /\ (a < 0 -> 2 ^ 31 <= ID (snd (setChild n p uid a)) < 2 ^ 32)
  /\ (ID (snd (setChild n p uid a)) = ID (snd (setChild n' p' uid' b)) ->
      a = b).
Proof.
  intros Ha Hb. simpl.
  destruct (to_unsigned_int a Ha) as [Hpa Hna].
  destruct (to_unsigned_int b Hb) as [Hpb Hnb].
  unfold int_range in *. change (2 ^ 31) with 2147483648 in *.
  change (2 ^ 32) with 4294967296 in *.
  split; [done |]. split; [intros Hneg; rewrite Hna by done; lia |].
  intros Heq.
  destruct (Z.lt_ge_cases a 0) as [Ha0 | Ha0];
    destruct (Z.lt_ge_cases b 0) as [Hb0 | Hb0];
    rewrite ?Hpa, ?Hna, ?Hpb, ?Hnb in Heq by lia; lia.
Qed.

Lemma setChildren_fields n (l : list (pointType * Z * Z)) :
  level (setChildren n l) = level n
  /\ children (setChildren n l)
     = children n
       ++ map (fun x => snd (setChild n (fst (fst x)) (snd (fst x)) (snd x))) l.
Proof.
  unfold setChildren. revert n. induction l as [| x l IH]; intros n.
  - simpl. by rewrite app_nil_r.
  - destruct (IH (fst (setChild n (fst (fst x)) (snd (fst x)) (snd x))))
      as [Hlev Hch].
    cbn [fold_left map]. split; [exact Hlev |].
    rewrite Hch, setChild_children, <- app_assoc. done.
Qed.

(** X8: children made by successive calls of [setChild] sit behind the
    children the node had, in the order of the calls, each with the point,
    UID and id of its call, one level below the node; the node keeps its
    point, level and bound. *)
Theorem setChildren_order n (l : list (pointType * Z * Z)) :
  children (setChildren n l)
  = children n
    ++ map (fun x => mkNode (fst (fst x)) [] (level n - 1) 0%Q
                       (to_unsigned (snd x)) (snd (fst x)) EmptyString) l
  /\ length (children (setChildren n l))
     = (length (children n) + length l)%nat
  /\ (forall (i : nat) x, l !! i = Some x ->
        exists c, children (setChildren n l) !! (length (children n) + i)%nat
                  = Some c
          /\ _p c = fst (fst x) /\ UID c = snd (fst x)
          /\ ID c = to_unsigned (snd x) /\ level c = level n - 1)
  /\ level (setChildren n l) = level n.
Proof.
  destruct (setChildren_fields n l) as [Hlev Hch].
  split; [exact Hch |]. split; [| split; [| exact Hlev]].
  - rewrite Hch, length_app, length_map. done.
  - intros i x Hx. rewrite Hch.
    rewrite lookup_app_r by lia.
    replace (length (children n) + i - length (children n))%nat with i by lia.
    change (map ?f ?l) with (f <$> l). rewrite list_lookup_fmap, Hx. simpl.
    eexists. split; [reflexivity |]. done.
Qed.

Lemma uids_setChild n p (uid new_id : Z) :
  uids (fst (setChild n p uid new_id)) = uids n ++ [uid].
Proof.
  unfold uids, subnodes. rewrite descendants_setChild. simpl.
  by rewrite map_app.
Qed.

(** X9: [setChild] with a UID that no node of the subtree has keeps the
    UIDs of the subtree distinct, and so does [erase]. *)
Theorem uids_distinct_kept n :
  NoDup (uids n) ->
  (forall p (uid new_id : Z),
      uid ∉ uids n -> NoDup (uids (fst (setChild n p uid new_id))))
  /\ (forall (pos : nat) n', erase n pos = Some n' -> NoDup (uids n')).
Proof.
  intros Hnd. split.
  - intros p uid new_id Hfresh. rewrite uids_setChild.
    apply NoDup_app. split; [done |]. split.
    + intros x Hx Hin. apply list_elem_of_singleton in Hin as ->. done.
    + apply NoDup_singleton.
  - intros pos n' He.
    destruct (erase_fields n pos n' He) as [_ Huid].
    destruct (erase_descendants_perm n pos n' He) as (c & _ & Hdesc).
    assert (Hperm : uids n ≡ₚ map UID (subnodes c) ++ uids n').
    { unfold uids. change (subnodes n) with (n :: descendants n).
      change (subnodes n') with (n' :: descendants n'). cbn [map].
      rewrite Hdesc, Huid, map_app. apply Permutation_middle. }
    rewrite Hperm in Hnd. by apply NoDup_app in Hnd as (_ & _ & Hnd).
Qed.

End NodeLaws.

(** ** The rational line *)

Lemma line_metric : metric line_dist.
Proof.
  split; unfold line_dist.
  - intros a b. apply Qabs_nonneg.
  - intros a b. by rewrite Qabs_Qminus.
  - intros a b c.
    assert (Heq : a - c == (a - b) + (b - c)) by ring.
    rewrite Heq. apply Qabs_triangle.
Qed.



Lemma compute_pow_table_positive (b : Q) :
  0 < b -> table_positive (compute_pow_table b).
Proof.
  intros Hb. unfold table_positive, compute_pow_table.
  apply Forall_map, Forall_forall. intros i _. by apply Qpower_0_lt.
Qed.

Lemma last_compute_pow_table (b : Q) :
  last (compute_pow_table b) = Some (Qpower b BIAS).
Proof.
  rewrite last_lookup, length_compute_pow_table.
  rewrite <- index_lookup.
  rewrite index_compute_pow_table by (unfold BIAS; lia).
  do 2 f_equal.
Qed.

Lemma in_table_compute_pow_table (b : Q) (L : Z) :
  (- BIAS <= L <= BIAS)%Z -> in_table (compute_pow_table b) L.
Proof.
  unfold in_table. rewrite length_compute_pow_table. unfold BIAS. lia.
Qed.

Lemma line_tree_within_table :
  insert_within_table line_dist line_tree (5 # 8).
Proof.
  intros r Hr. injection Hr as <-. split; [| split].
  - apply in_table_compute_pow_table. simpl. unfold BIAS. lia.
  - unfold child_levels_in_table.
    change (subnodes line_chain) with
      [line_chain; line_node 1 (-1) 2 [line_node (5 # 8) (-2) 3 []];
       line_node (5 # 8) (-2) 3 []].
    repeat apply Forall_cons_2; [| | | apply Forall_nil_2];
      intros _; apply in_table_compute_pow_table; simpl; unfold BIAS; lia.
  - exists (Qpower 2 BIAS). split; [apply last_compute_pow_table |].
    vm_compute. discriminate.
Qed.

Lemma line_tree_inserted :
  (r1 ← insert line_dist (null_tree 2) 0 1;
   r2 ← insert line_dist (snd r1) 1 2;
   insert line_dist (snd r2) (5 # 8) 3) = Some (true, line_tree).
Proof. vm_compute. reflexivity. Qed.

(** ** Where the specification and the code part *)

Lemma covdist_not_next_power :
  level (line_node 0 0 1 []) = 0%Z
  /\ covdist (compute_pow_table (13 # 10)) (line_node 0 0 1 []) = Some 1
  /\ ~ (1 == Qpower (13 # 10) (0 + 1)).
Proof.
  split; [reflexivity |]. split.
  - unfold covdist. simpl level.
    by rewrite index_compute_pow_table by (unfold BIAS; lia).
  - vm_compute. discriminate.
Qed.

Lemma sepdist_not_level_power :
  level (line_node 0 0 1 []) = 0%Z
  /\ sepdist (compute_pow_table 2) (line_node 0 0 1 []) = Some (1 # 2)
  /\ ~ (1 # 2 == Qpower 2 0).
Proof.
  split; [reflexivity |]. split.
  - unfold sepdist. simpl level.
    by rewrite index_compute_pow_table by (unfold BIAS; lia).
  - vm_compute. discriminate.
Qed.

Lemma calc_maxdist_not_exact :
  exists r, root (calc_maxdist line_dist line_tree) = Some r
    /\ maxdistUB r == 11 # 8
    /\ max_desc_dist line_dist r == 1
    /\ ~ (maxdistUB r == max_desc_dist line_dist r).
Proof.
  eexists. split; [reflexivity |]. vm_compute.
  repeat split; discriminate.
Qed.

Lemma setChild_breaks_bound :
  bound_ok line_dist (line_node 0 0 1 [])
  /\ ~ bound_ok line_dist (fst (setChild (line_node 0 0 1 []) 1 2 (-1))).
Proof.
  split.
  - vm_compute. discriminate.
  - vm_compute. intros H. by apply H.
Qed.

Lemma kNearestNeighbours_not_prefix :
  map (fun x => _p (fst x)) (kNearestNeighbours line_dist line_tree (3 # 8) 1)
    = [0]
  /\ map (fun x => _p (fst x)) (kNearestNeighbours line_dist line_tree (3 # 8) 2)
    = [5 # 8; 0]
  /\ ~ (kNearestNeighbours line_dist line_tree (3 # 8) 1
          `prefix_of` kNearestNeighbours line_dist line_tree (3 # 8) 2).
Proof.
  split; [vm_compute; reflexivity |]. split; [vm_compute; reflexivity |].
  intros [rest Hrest]. vm_compute in Hrest. discriminate.
Qed.

(** ** The theorems at concrete inputs *)

Lemma covdist_pow_table_witness :
  covdist (compute_pow_table 2) (line_node 0 3 1 []) = Some (Qpower 2 3).
Proof.
  apply (covdist_pow_table 2 (line_node 0 3 1 [])).
  simpl. unfold BIAS. lia.
Defined.

Lemma sepdist_pow_table_witness :
  sepdist (compute_pow_table 2) (line_node 0 3 1 []) = Some (Qpower 2 2).
Proof.
  apply (sepdist_pow_table 2 (line_node 0 3 1 [])).
  simpl. unfold BIAS. lia.
Defined.

Lemma calc_maxdist_upper_bound_witness :
  Forall (fun n => max_desc_dist line_dist n <= maxdistUB n)
         (subnodes (calc_maxdist_node line_dist line_chain)).
Proof.
  eapply Forall_impl.
  - apply (calc_maxdist_upper_bound line_dist line_tree
             (calc_maxdist_node line_dist line_chain) line_metric).
    reflexivity.
  - intros n Hn. exact (proj1 Hn).
Defined.

Lemma maxdistUB_conservative_witness :
  bound_ok line_dist (fst (setChild (set_maxdistUB (line_node 0 0 1 []) 2) 1 2 (-1))).
Proof.
  apply (maxdistUB_conservative line_dist
           (set_maxdistUB (line_node 0 0 1 []) 2) 1 2 (-1)).
  - vm_compute. discriminate.
  - vm_compute. discriminate.
Defined.

Lemma erase_swap_remove_witness :
  exists n',
    erase (line_node 0 0 1 [line_node 1 (-1) 2 []; line_node 2 (-1) 3 [];
                            line_node 3 (-1) 4 []]) 0 = Some n'
    /\ children n' = [line_node 3 (-1) 4 []; line_node 2 (-1) 3 []].
Proof.
  destruct (erase_swap_remove
              (line_node 0 0 1 [line_node 1 (-1) 2 []; line_node 2 (-1) 3 [];
                                line_node 3 (-1) 4 []]) 0%nat)
    as (n' & b & He & _).
  - simpl. lia.
  - exists n'. split; [exact He |].
    vm_compute in He. injection He as <-. reflexivity.
Defined.

Lemma line_tree_meets_duplicate : meets_duplicate line_dist line_tree (5 # 8).
Proof.
  unfold meets_duplicate.
  assert (Hobs : observed line_dist line_tree (5 # 8)
                 = subnodes line_chain) by (vm_compute; reflexivity).
  rewrite Hobs. apply Exists_cons_tl, Exists_cons_tl, Exists_cons_hd.
  vm_compute. reflexivity.
Qed.

Lemma insert_duplicate_witness :
  insert line_dist line_tree (5 # 8) 9 = Some (false, line_tree).
Proof.
  destruct (insert_duplicate line_dist line_tree (5 # 8) 9)
    as (b & t' & Hins & Hdup & _).
  - apply compute_pow_table_positive. reflexivity.
  - apply line_tree_within_table.
  - destruct (Hdup line_tree_meets_duplicate) as [-> ->]. exact Hins.
Defined.

Lemma kNearestNeighbours_prefix_witness :
  kNearestNeighbours line_dist (calc_maxdist line_dist line_tree) (3 # 8) 1
    `prefix_of`
  kNearestNeighbours line_dist (calc_maxdist line_dist line_tree) (3 # 8) 2.
Proof.
  apply (kNearestNeighbours_prefix line_dist
           (calc_maxdist line_dist line_tree) (3 # 8) 1 2).
  - lia.
  - apply line_metric.
  - intros r Hr. injection Hr as <-.
    exact (calc_maxdist_bounds_ok line_dist line_metric line_chain).
Defined.

(** ** The laws of the node operations at concrete inputs *)

Lemma line_fan_levels : levels_consistent line_fan.
Proof.
  unfold levels_consistent.
  change (subnodes line_fan) with
    [line_fan; line_node 1 (-1) 2 []; line_node 2 (-1) 3 [];
     line_node 3 (-1) 4 []].
  repeat apply Forall_cons_2; try apply Forall_nil_2; reflexivity.
Qed.

Lemma line_fan_uids : NoDup (uids line_fan) /\ 5%Z ∉ uids line_fan.
Proof.
  change (uids line_fan) with [1%Z; 2%Z; 3%Z; 4%Z].
  split; refine (bool_decide_unpack _ _); vm_compute; exact I.
Qed.

Lemma setChild_erase_replace_witness :
  erase (fst (setChild line_fan 4 5 7)) 0
  = Some (set_children line_fan
            (<[0%nat := snd (setChild line_fan 4 5 7)]> (children line_fan))).
Proof.
  apply (setChild_erase_replace line_fan 4 5 7 0). simpl. lia.
Defined.

Lemma erase_order_kept_witness :
  exists n', erase line_fan 1 = Some n'
    /\ children n' = delete 1%nat (children line_fan).
Proof.
  eexists. split; [reflexivity |].
  apply (erase_order_kept line_fan 1); [reflexivity | simpl; lia].
Defined.

Lemma erase_subtree_witness :
  exists c, children line_fan !! 0%nat = Some c
    /\ exists n', erase line_fan 0 = Some n'
         /\ length (subnodes line_fan)
            = (length (subnodes c) + length (subnodes n'))%nat.
Proof.
  destruct (erase_subtree line_fan 0
              (set_children line_fan
                 [line_node 3 (-1) 4 []; line_node 2 (-1) 3 []]))
    as (c & Hc & _ & Hlen).
  - reflexivity.
  - exists c. split; [exact Hc |]. eexists. split; [reflexivity |]. exact Hlen.
Defined.

Lemma levels_consistent_kept_witness :
  levels_consistent (fst (setChild line_fan 4 5 7)).
Proof.
  apply (levels_consistent_kept line_fan line_fan_levels).
Defined.

Lemma covdist_child_sepdist_witness :
  Forall (fun c => covdist (compute_pow_table 2) c
                   = sepdist (compute_pow_table 2) line_fan)
         (children line_fan).
Proof.
  apply (covdist_child_sepdist (compute_pow_table 2) line_fan).
  apply line_fan_levels.
Defined.

Lemma setChild_ID_faithful_witness :
  ID (snd (setChild line_fan 4 5 7)) = 7%Z.
Proof.
  apply (setChild_ID_faithful line_fan line_fan 4 4 5 5 7 (-1)).
  - unfold int_range. lia.
  - unfold int_range. lia.
  - lia.
Defined.

Lemma setChildren_order_witness :
  exists c,
    children (setChildren line_fan [(4, 5%Z, 7%Z); (5, 6%Z, 8%Z)])
      !! (length (children line_fan) + 1)%nat = Some c
    /\ _p c = 5 /\ UID c = 6%Z /\ ID c = to_unsigned 8 /\ level c = (-1)%Z.
Proof.
  destruct (setChildren_order line_fan [(4, 5%Z, 7%Z); (5, 6%Z, 8%Z)])
    as (_ & _ & Hat & _).
  apply (Hat 1%nat (5, 6%Z, 8%Z)). reflexivity.
Defined.

Lemma uids_distinct_kept_witness :
  NoDup (uids (fst (setChild line_fan 4 5 7))).
Proof.
  apply (uids_distinct_kept line_fan (proj1 line_fan_uids)).
  exact (proj2 line_fan_uids).
Defined.
